(** * Property-binding metadata of decorated classes (core/src/metadata/directives.ts)

    A shallow embedding of the executable part of the directive metadata module:
    the [Pipe] metadata transform and the construction of the [ngBaseDef]
    descriptor by the [Input] and [Output] property decorators
    ([initializeBaseDef], [updateBaseDefFromIOProp]).

    The JavaScript heap is modelled explicitly: descriptors and the objects
    they point to live in a store and are referred to by location, so that
    sharing and copying can be told apart. *)

From stdpp Require Import gmap strings list fin_maps finite.

(** ** Values and objects *)

(** The values that occur as property values in the metadata objects. *)
Inductive value :=
  | VUndefined
  | VBool (b : bool)
  | VString (s : string).

#[global] Instance value_eq_dec : EqDecision value.
Proof. solve_decision. Defined.

(** A plain object literal used as a lookup table: its own enumerable
    properties. A key may be present with the value [VUndefined]. *)
Abbreviation object := (gmap string value).

(** Object spread [{...base, ...src}]: the properties of [src] are written
    over those of [base]. *)
Definition spread (base src : object) : object := src ∪ base.

(** ** The [Pipe] decorator: [(p: Pipe) => ({pure: true, ...p})] *)

Definition Pipe_props (p : object) : object :=
  spread {[ "pure" := VBool true ]} p.

(** ** The heap *)

Abbreviation loc := nat.

(** The object literal [{inputs: .., outputs: .., declaredInputs: ..}]. Each
    field holds a reference to an object, or is missing ([inputs?: any]). *)
Record BaseDef := mkBaseDef {
  inputs : option loc;
  outputs : option loc;
  declaredInputs : option loc;
}.

(** A constructor function (a class). It is identified by the chain of class
    identifiers from the class itself up to its root base class: [d :: S] is
    the class [d] declared as [class d extends S]; its prototype is [S]. The
    empty chain stands for [Function.prototype], the object at the end of
    every such chain, where the lookup of a static property ends. *)
Abbreviation Ctor := (list nat).

(** The object a property decorator receives as [target]: the prototype of
    the decorated class, of which only [target.constructor] is read. *)
Record Target := mkTarget { constructor : Ctor }.

Record Heap := mkHeap {
  (** the own static property [ngBaseDef] of each constructor *)
  ownNgBaseDef : gmap (list nat) loc;
  (** the descriptor objects *)
  baseDefs : gmap loc BaseDef;
  (** the lookup-table objects the descriptors point to *)
  objects : gmap loc (gmap string value);
  (** the next free location *)
  nextLoc : loc;
}.

(** The heap before any decorator has run. *)
Definition emptyHeap : Heap := mkHeap ∅ ∅ ∅ 0.

(** ** Computations on the heap

    A computation reads and updates the heap and may throw ([None]): a
    [TypeError] for a property read on [undefined]. *)
Definition M (A : Type) : Type := Heap → option (A * Heap).

#[global] Instance M_ret : MRet M := λ A a h, Some (a, h).
#[global] Instance M_bind : MBind M := λ A B f m h,
  match m h with
  | Some (a, h') => f a h'
  | None => None
  end.

Definition throw {A} : M A := λ _, None.

(** [{}] and other object literals: a new object at a new location. *)
Definition allocObject (o : object) : M loc := λ h,
  Some (nextLoc h,
        mkHeap (ownNgBaseDef h) (baseDefs h)
               (<[nextLoc h := o]> (objects h)) (S (nextLoc h))).

Definition allocBaseDef (b : BaseDef) : M loc := λ h,
  Some (nextLoc h,
        mkHeap (ownNgBaseDef h) (<[nextLoc h := b]> (baseDefs h))
               (objects h) (S (nextLoc h))).

(** Reading the fields of a descriptor object. *)
Definition readBaseDef (l : loc) : M BaseDef := λ h,
  match baseDefs h !! l with
  | Some b => Some (b, h)
  | None => None
  end.

(** [o[name] = v] *)
Definition setProperty (o : loc) (name : string) (v : value) : M unit := λ h,
  match objects h !! o with
  | Some props =>
      Some (tt, mkHeap (ownNgBaseDef h) (baseDefs h)
                       (<[o := <[name := v]> props]> (objects h)) (nextLoc h))
  | None => None
  end.

(** [constructor.ngBaseDef]: the property is looked up on the constructor
    and then along its prototype chain; [None] is [undefined]. *)
Fixpoint lookupNgBaseDef (h : Heap) (c : Ctor) : option loc :=
  match ownNgBaseDef h !! c with
  | Some l => Some l
  | None =>
      match c with
      | [] => None
      | _ :: super => lookupNgBaseDef h super
      end
  end.

Definition getNgBaseDef (c : Ctor) : M (option loc) := λ h,
  Some (lookupNgBaseDef h c, h).

(** [constructor.ngBaseDef = l]: defines the property on the constructor
    itself. *)
Definition setNgBaseDef (c : Ctor) (l : loc) : M unit := λ h,
  Some (tt, mkHeap (<[c := l]> (ownNgBaseDef h)) (baseDefs h) (objects h)
                   (nextLoc h)).

(** Modelled from the spec: the constant [NG_BASE_DEF] is imported from
    [../render3/fields], which is not among the sources. The spec describes
    the test as a direct ownership test for the descriptor, with no walk of
    the prototype chain, so the constant names the property [ngBaseDef]. *)
Definition hasOwnProperty_NG_BASE_DEF (c : Ctor) : M bool := λ h,
  Some (bool_decide (is_Some (ownNgBaseDef h !! c)), h).

(** Modelled from the spec: [fillProperties] is imported from
    [../util/property], which is not among the sources. The spec says that
    every entry of the source mapping is copied into the target mapping.
    A source that is [undefined] has no entries. *)
Definition fillProperties (target : loc) (source : option loc) : M unit :=
  match source with
  | None => mret tt
  | Some s => λ h,
      match objects h !! target, objects h !! s with
      | Some t, Some src =>
          Some (tt, mkHeap (ownNgBaseDef h) (baseDefs h)
                           (<[target := spread t src]> (objects h)) (nextLoc h))
      | _, _ => None
      end
  end.

(** ** [initializeBaseDef] *)

Definition initializeBaseDef (target : Target) : M unit :=
  let constructor := constructor target in
  inheritedBaseDef ← getNgBaseDef constructor;
  i ← allocObject ∅;
  o ← allocObject ∅;
  d ← allocObject ∅;
  baseDef ← allocBaseDef (mkBaseDef (Some i) (Some o) (Some d));
  setNgBaseDef constructor baseDef;;
  match inheritedBaseDef with
  | Some inherited =>
      inh ← readBaseDef inherited;
      fillProperties i (inputs inh);;
      fillProperties o (outputs inh);;
      fillProperties d (declaredInputs inh)
  | None => mret tt
  end.

(** ** [updateBaseDefFromIOProp] *)

(** [args[0]]: [undefined] when the decorator was called without argument. *)
Definition arg0 (args : list value) : value := nth 0 args VUndefined.

Definition updateBaseDefFromIOProp (getProp : option loc → M loc)
    (target : Target) (name : string) (args : list value) : M unit :=
  let constructor := constructor target in
  own ← hasOwnProperty_NG_BASE_DEF constructor;
  (if negb own then initializeBaseDef target else mret tt);;
  baseDef ← getNgBaseDef constructor;
  defProp ← getProp baseDef;
  setProperty defProp name (arg0 args).

(** [baseDef => baseDef.inputs || {}] and [baseDef => baseDef.outputs || {}] *)
Definition orEmpty (field : BaseDef → option loc) (baseDef : option loc) : M loc :=
  match baseDef with
  | None => throw
  | Some l =>
      b ← readBaseDef l;
      match field b with
      | Some m => mret m
      | None => allocObject ∅
      end
  end.

(** The additional processing [makePropDecorator] is given for [Input] and
    for [Output]. [makePropDecorator] itself is imported from
    [../util/decorators]; the decorator it builds calls the processing once
    for each decorated property, with the target, the property name and
    the arguments the decorator was applied to, so that [args] is [[]] for
    [@Input()] and holds the binding name for [@Input('alias')]. *)
Definition Input : Target → string → list value → M unit :=
  updateBaseDefFromIOProp (orEmpty inputs).

Definition Output : Target → string → list value → M unit :=
  updateBaseDefFromIOProp (orEmpty outputs).

(** The first lines of the function returned by [updateBaseDefFromIOProp]:
    make sure the constructor owns a descriptor, then read it. This is the
    operation the specification calls [ensureDescriptor]. *)
Definition ensureDescriptor (target : Target) : M (option loc) :=
  let constructor := constructor target in
  own ← hasOwnProperty_NG_BASE_DEF constructor;
  (if negb own then initializeBaseDef target else mret tt);;
  getNgBaseDef constructor.

(** ** Sequences of decorations *)

Inductive decoration :=
  | DInput (target : Target) (name : string) (args : list value)
  | DOutput (target : Target) (name : string) (args : list value).

Definition decorated (d : decoration) : Ctor :=
  match d with
  | DInput t _ _ | DOutput t _ _ => constructor t
  end.

Definition decorate (d : decoration) : M unit :=
  match d with
  | DInput t name args => Input t name args
  | DOutput t name args => Output t name args
  end.

Fixpoint decorateAll (ds : list decoration) : M unit :=
  match ds with
  | [] => mret tt
  | d :: ds => decorate d;; decorateAll ds
  end.

(** The heaps that arise from running decorators, starting with no
    descriptor at all. *)
Definition reachable (h : Heap) : Prop :=
  ∃ ds, decorateAll ds emptyHeap = Some (tt, h).

(** ** Observing descriptors *)

Inductive category := CInputs | COutputs | CDeclaredInputs.

#[global] Instance category_eq_dec : EqDecision category.
Proof. solve_decision. Defined.

#[global] Program Instance category_finite : Finite category :=
  {| enum := [CInputs; COutputs; CDeclaredInputs] |}.
Next Obligation.
  repeat constructor; rewrite ?elem_of_cons, ?elem_of_nil; intuition discriminate.
Qed.
Next Obligation. intros []; rewrite !elem_of_cons; auto. Qed.

Definition field (k : category) (b : BaseDef) : option loc :=
  match k with
  | CInputs => inputs b
  | COutputs => outputs b
  | CDeclaredInputs => declaredInputs b
  end.

(** The mapping of category [k] of the descriptor at [l]. *)
Definition mappingAt (h : Heap) (l : loc) (k : category) : option object :=
  b ← baseDefs h !! l; m ← field k b; objects h !! m.

(** The mapping of category [k] of the descriptor [c] owns. *)
Definition ownMapping (h : Heap) (c : Ctor) (k : category) : option object :=
  l ← ownNgBaseDef h !! c; mappingAt h l k.

(** The mapping [c.ngBaseDef[k]], whether the descriptor is owned or
    inherited. *)
Definition visibleMapping (h : Heap) (c : Ctor) (k : category) : option object :=
  l ← lookupNgBaseDef h c; mappingAt h l k.

(** The mapping a new descriptor of [c] starts with: the one [c] sees
    through its prototype chain, or no entry at all. *)
Definition inheritedMapping (h : Heap) (c : Ctor) (k : category) : object :=
  default ∅ (visibleMapping h c k).

(** A mapping that is absent or has no entry. *)
Definition noEntries (o : option object) : Prop := default ∅ o = ∅.

(** The mapping a decoration writes to, and the entry it writes. *)
Definition writtenCategory (d : decoration) : category :=
  match d with
  | DInput _ _ _ => CInputs
  | DOutput _ _ _ => COutputs
  end.

Definition writtenName (d : decoration) : string :=
  match d with
  | DInput _ name _ | DOutput _ name _ => name
  end.

Definition writtenValue (d : decoration) : value :=
  match d with
  | DInput _ _ args | DOutput _ _ args => arg0 args
  end.

(** ** Well-formed heaps

    The shape of the heaps the decorators build. In the order of the
    clauses of [wf]: the descriptor a constructor owns is allocated; no
    descriptor object is owned by two constructors; every descriptor lies
    below [nextLoc] and has its three mappings, each allocated; every
    mapping object lies below [nextLoc]; and no mapping object is shared
    between two descriptors or between two fields of one. All clauses are
    decidable, so that [wf] can be checked on a given heap by evaluation. *)

Definition fieldAllocated (h : Heap) (b : BaseDef) (k : category) : Prop :=
  from_option (λ m, is_Some (objects h !! m)) False (field k b).

#[global] Instance fieldAllocated_dec h b k : Decision (fieldAllocated h b k).
Proof. unfold fieldAllocated. destruct (field k b); simpl; apply _. Defined.

Definition wf (h : Heap) : Prop :=
  map_Forall (λ _ l, is_Some (baseDefs h !! l)) (ownNgBaseDef h) ∧
  map_Forall (λ c1 l1,
    map_Forall (λ c2 l2, l1 = l2 → c1 = c2) (ownNgBaseDef h)) (ownNgBaseDef h) ∧
  map_Forall (λ l b, l < nextLoc h ∧ ∀ k, fieldAllocated h b k) (baseDefs h) ∧
  map_Forall (λ m _, m < nextLoc h) (objects h) ∧
  map_Forall (λ l1 b1,
    map_Forall (λ l2 b2, ∀ k1 k2,
      is_Some (field k1 b1) → field k1 b1 = field k2 b2 → l1 = l2 ∧ k1 = k2)
      (baseDefs h)) (baseDefs h).

#[global] Instance wf_dec h : Decision (wf h).
Proof. unfold wf. apply _. Defined.

(** ** Heaps in closed form

    The heaps the operations leave behind, written out; the properties
    below relate them to the monadic definitions. *)

(** The heap [initializeBaseDef] leaves behind, in closed form. *)
Definition initialized (h : Heap) (c : Ctor) : Heap :=
  let n := nextLoc h in
  mkHeap (<[c := S (S (S n))]> (ownNgBaseDef h))
         (<[S (S (S n)) := mkBaseDef (Some n) (Some (S n)) (Some (S (S n)))]>
            (baseDefs h))
         (<[S (S n) := inheritedMapping h c CDeclaredInputs]>
            (<[S n := inheritedMapping h c COutputs]>
               (<[n := inheritedMapping h c CInputs]> (objects h))))
         (S (S (S (S n)))).

(** Writing a property of an allocated object. *)
Definition written (h : Heap) (m : loc) (name : string) (v : value) (o : object) : Heap :=
  mkHeap (ownNgBaseDef h) (baseDefs h)
         (<[m := <[name := v]> o]> (objects h)) (nextLoc h).

(** The heap after [ensureDescriptor]. *)
Definition ensured (h : Heap) (c : Ctor) : Heap :=
  if bool_decide (is_Some (ownNgBaseDef h !! c)) then h else initialized h c.

(** ** Sample classes and heaps *)

(** [class Base {}] and [class Derived extends Base {}]. *)
Definition Base : Ctor := [1].
Definition Derived : Ctor := [2; 1].

(** The heap after [@Input('a') a] on [Base]. *)
Definition baseHeap : Heap :=
  mkHeap {[ Base := 3 ]}
         {[ 3 := mkBaseDef (Some 0) (Some 1) (Some 2) ]}
         {[ 0 := {[ "a" := VString "a" ]}; 1 := ∅; 2 := ∅ ]}
         4.

(** Lookups at locations that differ by a known offset. *)
Ltac heap_lookup :=
  repeat (rewrite lookup_insert_eq || rewrite lookup_insert_ne by lia).

(** ** The [Component] decorator *)

(** [(c: Component = {}) => ({changeDetection: ChangeDetectionStrategy.Default, ...c})].
    The enumeration [ChangeDetectionStrategy] is imported from
    [../change_detection/constants]; its member [Default] is the parameter
    [Default], of whatever type [V] the property values have. An argument
    that is left out or [undefined] is [None], and the default [{}] of the
    parameter is taken for it. *)
Definition Component_props {V} (Default : V) (c : option (gmap string V)) :
    gmap string V :=
  default ∅ c ∪ {[ "changeDetection" := Default ]}.

(** ** Relating decorations *)

(** Two decorations write the same entry: same class, same mapping, same
    name. *)
Definition sameSlot (d d' : decoration) : Prop :=
  decorated d = decorated d' ∧
  writtenCategory d = writtenCategory d' ∧
  writtenName d = writtenName d'.

#[global] Instance sameSlot_dec d d' : Decision (sameSlot d d').
Proof. unfold sameSlot. apply _. Defined.

(** Every entry of every mapping was written by one of the decorations
    [ds], applied to the class or to one of its ancestors. *)
Definition declaredBy (ds : list decoration) (h : Heap) : Prop :=
  ∀ c k o n v,
    ownMapping h c k = Some o → o !! n = Some v →
    ∃ d, d ∈ ds ∧ decorated d `suffix_of` c ∧ writtenCategory d = k ∧
         writtenName d = n ∧ writtenValue d = v.

(** ** More sample heaps *)


(** The heap after [@Input('a') a] on [Base] and [@Input() b] on
    [Derived]. *)
Definition derivedHeap : Heap :=
  mkHeap {[ Base := 3; Derived := 7 ]}
         {[ 3 := mkBaseDef (Some 0) (Some 1) (Some 2);
            7 := mkBaseDef (Some 4) (Some 5) (Some 6) ]}
         {[ 0 := {[ "a" := VString "a" ]}; 1 := ∅; 2 := ∅;
            4 := {[ "a" := VString "a"; "b" := VUndefined ]}; 5 := ∅; 6 := ∅ ]}
         8.

(** * Properties *)

(** ** Well-formedness, unfolded *)

Section WellFormed.
Context (h : Heap) (Hwf : wf h).

Lemma wf_own_alloc c l :
  ownNgBaseDef h !! c = Some l → is_Some (baseDefs h !! l).
Proof. destruct Hwf as (H & _). apply H. Qed.

Lemma wf_own_inj c1 c2 l :
  ownNgBaseDef h !! c1 = Some l → ownNgBaseDef h !! c2 = Some l → c1 = c2.
Proof.
  destruct Hwf as (_ & H & _). intros H1 H2. by apply (H c1 l H1 c2 l H2).
Qed.

Lemma wf_def_bound l b : baseDefs h !! l = Some b → l < nextLoc h.
Proof. destruct Hwf as (_ & _ & H & _). intros Hl. by apply (H l b Hl). Qed.

Lemma wf_def_field l b k :
  baseDefs h !! l = Some b →
  ∃ m o, field k b = Some m ∧ objects h !! m = Some o.
Proof.
  destruct Hwf as (_ & _ & H & _). intros Hl.
  destruct (H l b Hl) as [_ Hk]. specialize (Hk k).
  unfold fieldAllocated in Hk. destruct (field k b) as [m|]; [|done].
  destruct Hk as [o Ho]. eauto.
Qed.

Lemma wf_obj_bound m o : objects h !! m = Some o → m < nextLoc h.
Proof. destruct Hwf as (_ & _ & _ & H & _). apply H. Qed.

Lemma wf_sep l1 l2 b1 b2 k1 k2 m :
  baseDefs h !! l1 = Some b1 → baseDefs h !! l2 = Some b2 →
  field k1 b1 = Some m → field k2 b2 = Some m → l1 = l2 ∧ k1 = k2.
Proof.
  destruct Hwf as (_ & _ & _ & _ & H). intros H1 H2 F1 F2.
  apply (H l1 b1 H1 l2 b2 H2); [by rewrite F1 | congruence].
Qed.

Lemma wf_lookup_alloc c l :
  lookupNgBaseDef h c = Some l → ∃ b, baseDefs h !! l = Some b.
Proof.
  induction c as [|x c IH]; simpl;
    destruct (ownNgBaseDef h !! _) as [l'|] eqn:E; try done;
    intros [= <-]; by eapply wf_own_alloc.
Qed.
End WellFormed.

Lemma wf_intro h :
  (∀ c l, ownNgBaseDef h !! c = Some l → is_Some (baseDefs h !! l)) →
  (∀ c1 c2 l, ownNgBaseDef h !! c1 = Some l →
              ownNgBaseDef h !! c2 = Some l → c1 = c2) →
  (∀ l b, baseDefs h !! l = Some b → l < nextLoc h) →
  (∀ l b k, baseDefs h !! l = Some b →
            ∃ m o, field k b = Some m ∧ objects h !! m = Some o) →
  (∀ m o, objects h !! m = Some o → m < nextLoc h) →
  (∀ l1 l2 b1 b2 k1 k2 m,
     baseDefs h !! l1 = Some b1 → baseDefs h !! l2 = Some b2 →
     field k1 b1 = Some m → field k2 b2 = Some m → l1 = l2 ∧ k1 = k2) →
  wf h.
Proof.
  intros A B C D E F. unfold wf. split_and!.
  - intros c l. apply A.
  - intros c1 l1 H1 c2 l2 H2 ->. eauto.
  - intros l b Hl. split; [eauto|]. intros k. unfold fieldAllocated.
    destruct (D l b k Hl) as (m & o & -> & Ho). by simpl.
  - intros m o. apply E.
  - intros l1 b1 H1 l2 b2 H2 k1 k2 [m Hm] Heq.
    apply (F l1 l2 b1 b2 k1 k2 m); congruence.
Qed.

Lemma wf_emptyHeap : wf emptyHeap.
Proof. apply wf_intro; simpl; intros *; by rewrite ?lookup_empty. Qed.

(** ** The heap after [initializeBaseDef] *)

Lemma spread_empty (o : object) : spread ∅ o = o.
Proof. unfold spread. apply (right_id_L ∅ (∪)). Qed.

Lemma initializeBaseDef_run h c :
  wf h → initializeBaseDef (mkTarget c) h = Some (tt, initialized h c).
Proof.
  intros Hwf.
  unfold initializeBaseDef, initialized, inheritedMapping, visibleMapping.
  unfold mbind, M_bind, getNgBaseDef, allocObject, allocBaseDef, setNgBaseDef.
  simpl.
  destruct (lookupNgBaseDef h c) as [lS|] eqn:Elook; simpl.
  - destruct (wf_lookup_alloc h Hwf c lS Elook) as [bS HbS].
    pose proof (wf_def_bound h Hwf lS bS HbS) as HlS.
    destruct (wf_def_field h Hwf lS bS CInputs HbS) as (mi & oi & Fi & Hi).
    destruct (wf_def_field h Hwf lS bS COutputs HbS) as (mo & oo & Fo & Ho).
    destruct (wf_def_field h Hwf lS bS CDeclaredInputs HbS)
      as (md & od & Fd & Hd).
    pose proof (wf_obj_bound h Hwf mi oi Hi).
    pose proof (wf_obj_bound h Hwf mo oo Ho).
    pose proof (wf_obj_bound h Hwf md od Hd).
    simpl in Fi, Fo, Fd.
    unfold readBaseDef, mappingAt; simpl.
    rewrite lookup_insert_ne, HbS by lia. simpl.
    rewrite Fi, Fo, Fd. simpl. rewrite Hi, Ho, Hd. simpl.
    unfold fillProperties; simpl. heap_lookup. rewrite Hi. simpl.
    heap_lookup. rewrite Ho. simpl. heap_lookup. rewrite Hd.
    rewrite !spread_empty. do 3 f_equal.
    apply map_eq. intros x. rewrite !lookup_insert.
    repeat case_decide; try done; lia.
  - do 3 f_equal.
Qed.

(** ** Well-formedness is preserved *)

Lemma wf_initialized h c : wf h → wf (initialized h c).
Proof.
  intros Hwf. apply wf_intro; unfold initialized; simpl.
  - intros c' l. rewrite lookup_insert. case_decide.
    + intros [= <-]. rewrite lookup_insert_eq. eauto.
    + intros Hl. destruct (wf_own_alloc h Hwf c' l Hl) as [b Hb].
      pose proof (wf_def_bound h Hwf l b Hb).
      rewrite lookup_insert_ne by lia. eauto.
  - intros c1 c2 l. rewrite !lookup_insert.
    repeat case_decide; subst; try done.
    + intros [= <-] Hl. destruct (wf_own_alloc h Hwf c2 _ Hl) as [b Hb].
      pose proof (wf_def_bound h Hwf _ b Hb). lia.
    + intros Hl [= <-]. destruct (wf_own_alloc h Hwf c1 _ Hl) as [b Hb].
      pose proof (wf_def_bound h Hwf _ b Hb). lia.
    + apply (wf_own_inj h Hwf).
  - intros l b. rewrite lookup_insert. case_decide; [lia|].
    intros Hb. pose proof (wf_def_bound h Hwf l b Hb). lia.
  - intros l b k. rewrite lookup_insert. case_decide.
    + intros [= <-]. destruct k; simpl; eexists _, _; split; try done;
        heap_lookup; done.
    + intros Hb. destruct (wf_def_field h Hwf l b k Hb) as (m & o & F & Ho).
      pose proof (wf_obj_bound h Hwf m o Ho).
      exists m, o. split; [done|]. by heap_lookup.
  - intros m o. rewrite !lookup_insert. repeat case_decide; try lia.
    intros Ho. pose proof (wf_obj_bound h Hwf m o Ho). lia.
  - intros l1 l2 b1 b2 k1 k2 m. rewrite !lookup_insert.
    repeat case_decide; subst.
    + intros [= <-] [= <-]. split; [done|].
      destruct k1, k2; simpl in *; try done; simplify_eq; lia.
    + intros [= <-] Hb F1 F2.
      destruct (wf_def_field h Hwf l2 b2 k2 Hb) as (m' & o & F & Ho).
      pose proof (wf_obj_bound h Hwf m' o Ho).
      destruct k1; simpl in *; simplify_eq; lia.
    + intros Hb [= <-] F1 F2.
      destruct (wf_def_field h Hwf l1 b1 k1 Hb) as (m' & o & F & Ho).
      pose proof (wf_obj_bound h Hwf m' o Ho).
      destruct k2; simpl in *; simplify_eq; lia.
    + apply (wf_sep h Hwf).
Qed.

Lemma wf_written h m name v o :
  wf h → objects h !! m = Some o → wf (written h m name v o).
Proof.
  intros Hwf Hm. apply wf_intro; unfold written; simpl.
  - apply (wf_own_alloc h Hwf).
  - apply (wf_own_inj h Hwf).
  - apply (wf_def_bound h Hwf).
  - intros l b k Hb. destruct (wf_def_field h Hwf l b k Hb) as (m' & o' & F & Ho).
    exists m'. rewrite lookup_insert. case_decide; eauto.
  - intros m' o'. rewrite lookup_insert. case_decide; subst.
    + intros _. by eapply wf_obj_bound.
    + by apply wf_obj_bound.
  - apply (wf_sep h Hwf).
Qed.

(** ** The heap after [ensureDescriptor] and after a decoration *)

Lemma lookup_own h c l :
  ownNgBaseDef h !! c = Some l → lookupNgBaseDef h c = Some l.
Proof. intros H. destruct c; simpl; by rewrite H. Qed.

Lemma ensured_own h c :
  ownNgBaseDef (ensured h c) !! c =
  Some (default (S (S (S (nextLoc h)))) (ownNgBaseDef h !! c)).
Proof.
  unfold ensured. case_bool_decide as Hown.
  - destruct Hown as [l Hl]. by rewrite Hl.
  - simpl. rewrite lookup_insert_eq.
    destruct (ownNgBaseDef h !! c); [|done]. destruct Hown; eauto.
Qed.

Lemma wf_ensured h c : wf h → wf (ensured h c).
Proof. unfold ensured. case_bool_decide; auto using wf_initialized. Qed.

Lemma ensureDescriptor_run h c :
  wf h →
  ensureDescriptor (mkTarget c) h =
  Some (ownNgBaseDef (ensured h c) !! c, ensured h c).
Proof.
  intros Hwf. pose proof (ensured_own h c) as Hown.
  apply lookup_own in Hown as Hlook. rewrite Hown.
  unfold ensureDescriptor, mbind, M_bind, hasOwnProperty_NG_BASE_DEF. simpl.
  unfold ensured in *. case_bool_decide; simpl.
  - unfold getNgBaseDef. by rewrite Hlook.
  - rewrite initializeBaseDef_run by done.
    unfold getNgBaseDef. by rewrite Hlook.
Qed.

Lemma updateBaseDefFromIOProp_run h c k name args :
  wf h →
  ∃ l b m o,
    ownNgBaseDef (ensured h c) !! c = Some l ∧
    baseDefs (ensured h c) !! l = Some b ∧
    field k b = Some m ∧
    objects (ensured h c) !! m = Some o ∧
    updateBaseDefFromIOProp (orEmpty (field k)) (mkTarget c) name args h =
    Some (tt, written (ensured h c) m name (arg0 args) o).
Proof.
  intros Hwf. pose proof (ensureDescriptor_run h c Hwf) as Hrun.
  pose proof (wf_ensured h c Hwf) as Hwf'.
  pose proof (ensured_own h c) as Hown.
  destruct (wf_own_alloc _ Hwf' c _ Hown) as [b Hb].
  destruct (wf_def_field _ Hwf' _ b k Hb) as (m & o & F & Ho).
  eexists _, b, m, o. split_and!; try done.
  unfold ensureDescriptor, updateBaseDefFromIOProp, mbind, M_bind in *.
  simpl in *.
  destruct (if negb _ then _ else _) as [[[] h1]|]; [|done].
  unfold getNgBaseDef in *. injection Hrun as Hlook ->.
  rewrite Hlook, Hown. simpl.
  unfold readBaseDef, mbind, M_bind. rewrite Hb, F. simpl.
  unfold setProperty. by rewrite Ho.
Qed.

(** ** What a decoration changes, and what it leaves alone *)

Lemma mappingAt_initialized h c l b k :
  wf h → baseDefs h !! l = Some b →
  mappingAt (initialized h c) l k = mappingAt h l k.
Proof.
  intros Hwf Hb. pose proof (wf_def_bound h Hwf l b Hb).
  destruct (wf_def_field h Hwf l b k Hb) as (m & o & F & Ho).
  pose proof (wf_obj_bound h Hwf m o Ho).
  unfold mappingAt, initialized; simpl.
  rewrite lookup_insert_ne, Hb by lia. simpl. rewrite F. simpl.
  by heap_lookup.
Qed.

Lemma ownMapping_initialized_ne h c c' k :
  wf h → c' ≠ c → ownMapping (initialized h c) c' k = ownMapping h c' k.
Proof.
  intros Hwf Hne. unfold ownMapping. simpl. rewrite lookup_insert_ne by done.
  destruct (ownNgBaseDef h !! c') as [l|] eqn:Hl; [simpl|done].
  destruct (wf_own_alloc h Hwf c' l Hl) as [b Hb].
  by eapply mappingAt_initialized.
Qed.

Lemma ownMapping_initialized_eq h c k :
  ownMapping (initialized h c) c k = Some (inheritedMapping h c k).
Proof.
  unfold ownMapping, mappingAt, initialized. simpl.
  rewrite lookup_insert_eq. simpl. rewrite lookup_insert_eq. simpl.
  destruct k; simpl; by heap_lookup.
Qed.

Lemma visibleMapping_own h c l k :
  ownNgBaseDef h !! c = Some l → visibleMapping h c k = ownMapping h c k.
Proof.
  intros Hl. unfold visibleMapping, ownMapping.
  by rewrite (lookup_own h c l Hl), Hl.
Qed.

Lemma ownMapping_is_Some h c l k :
  wf h → ownNgBaseDef h !! c = Some l → is_Some (ownMapping h c k).
Proof.
  intros Hwf Hl. unfold ownMapping, mappingAt. rewrite Hl. simpl.
  destruct (wf_own_alloc h Hwf c l Hl) as [b Hb]. rewrite Hb. simpl.
  destruct (wf_def_field h Hwf l b k Hb) as (m & o & F & Ho).
  rewrite F. simpl. rewrite Ho. eauto.
Qed.

Lemma ownMapping_ensured_eq h c k :
  wf h → ownMapping (ensured h c) c k = Some (inheritedMapping h c k).
Proof.
  intros Hwf. unfold ensured. case_bool_decide as Hown.
  - destruct Hown as [l Hl]. unfold inheritedMapping.
    rewrite (visibleMapping_own h c l k Hl).
    by destruct (ownMapping_is_Some h c l k Hwf Hl) as [o ->].
  - apply ownMapping_initialized_eq.
Qed.

Lemma ownMapping_ensured_ne h c c' k :
  wf h → c' ≠ c → ownMapping (ensured h c) c' k = ownMapping h c' k.
Proof.
  intros Hwf Hne. unfold ensured. case_bool_decide; [done|].
  by apply ownMapping_initialized_ne.
Qed.

Lemma ownNgBaseDef_ensured_ne h c c' :
  c' ≠ c → ownNgBaseDef (ensured h c) !! c' = ownNgBaseDef h !! c'.
Proof.
  intros Hne. unfold ensured. case_bool_decide; [done|].
  simpl. by rewrite lookup_insert_ne.
Qed.

Lemma mappingAt_written h m name v o l b k l' :
  wf h → objects h !! m = Some o →
  baseDefs h !! l = Some b → field k b = Some m →
  ∀ k', mappingAt (written h m name v o) l' k' =
        if decide (l' = l ∧ k' = k) then Some (<[name := v]> o)
        else mappingAt h l' k'.
Proof.
  intros Hwf Ho Hb F k'. unfold mappingAt, written. simpl.
  case_decide as Hd.
  - destruct Hd as [-> ->]. rewrite Hb. simpl. rewrite F. simpl.
    by rewrite lookup_insert_eq.
  - destruct (baseDefs h !! l') as [b'|] eqn:Hb'; [simpl|done].
    destruct (field k' b') as [m'|] eqn:F'; [simpl|done].
    rewrite lookup_insert_ne; [done|]. intros <-.
    destruct (wf_sep h Hwf l l' b b' k k' m Hb Hb' F F') as [E1 E2].
    apply Hd. by split.
Qed.

(** The effect of the function returned by [updateBaseDefFromIOProp] on a
    well-formed heap: it returns, the heap stays well-formed, descriptors
    are those of [ensured h c], and exactly one mapping gets one entry. *)
Lemma updateBaseDefFromIOProp_effect h c k name args :
  wf h →
  ∃ h',
    updateBaseDefFromIOProp (orEmpty (field k)) (mkTarget c) name args h =
      Some (tt, h') ∧
    wf h' ∧
    ownNgBaseDef h' = ownNgBaseDef (ensured h c) ∧
    baseDefs h' = baseDefs (ensured h c) ∧
    ∀ c' k', ownMapping h' c' k' =
      if decide (c' = c ∧ k' = k)
      then Some (<[name := arg0 args]> (inheritedMapping h c k))
      else ownMapping (ensured h c) c' k'.
Proof.
  intros Hwf.
  destruct (updateBaseDefFromIOProp_run h c k name args Hwf)
    as (l & b & m & o & Hl & Hb & F & Ho & Hrun).
  pose proof (wf_ensured h c Hwf) as Hwf'.
  eexists. split; [exact Hrun|]. split_and!; try done.
  - by apply wf_written.
  - intros c' k'. unfold ownMapping at 1. simpl.
    pose proof (ownMapping_ensured_eq h c k Hwf) as Hc.
    unfold ownMapping, mappingAt in Hc. rewrite Hl in Hc. simpl in Hc.
    rewrite Hb in Hc. simpl in Hc. rewrite F in Hc. simpl in Hc.
    rewrite Ho in Hc. injection Hc as ->.
    destruct (ownNgBaseDef (ensured h c) !! c') as [l'|] eqn:Hl'.
    + simpl. rewrite (mappingAt_written _ m name _ _ l b k l' Hwf' Ho Hb F).
      unfold ownMapping. rewrite Hl'. simpl.
      apply decide_ext. split; intros [E ->]; (split; [|done]).
      * subst l'. by eapply wf_own_inj.
      * subst c'. congruence.
    + simpl. case_decide as Hd; [|by unfold ownMapping; rewrite Hl'].
      destruct Hd as [-> ->]. congruence.
Qed.

Lemma decorate_effect d h :
  wf h →
  ∃ h',
    decorate d h = Some (tt, h') ∧
    wf h' ∧
    ownNgBaseDef h' = ownNgBaseDef (ensured h (decorated d)) ∧
    baseDefs h' = baseDefs (ensured h (decorated d)) ∧
    ∀ c' k', ownMapping h' c' k' =
      if decide (c' = decorated d ∧ k' = writtenCategory d)
      then Some (<[writtenName d := writtenValue d]>
                   (inheritedMapping h (decorated d) (writtenCategory d)))
      else ownMapping (ensured h (decorated d)) c' k'.
Proof.
  intros Hwf. destruct d as [[c] name args|[c] name args]; simpl.
  - apply (updateBaseDefFromIOProp_effect h c CInputs name args Hwf).
  - apply (updateBaseDefFromIOProp_effect h c COutputs name args Hwf).
Qed.

Lemma decorateAll_cons d ds h h1 :
  decorate d h = Some (tt, h1) →
  decorateAll (d :: ds) h = decorateAll ds h1.
Proof. intros H. simpl. unfold mbind, M_bind. by rewrite H. Qed.

Lemma decorateAll_total ds h :
  wf h → ∃ h', decorateAll ds h = Some (tt, h') ∧ wf h'.
Proof.
  revert h. induction ds as [|d ds IH]; intros h Hwf.
  - by exists h.
  - destruct (decorate_effect d h Hwf) as (h1 & Hrun & Hwf1 & _).
    rewrite (decorateAll_cons d ds h h1 Hrun). by apply IH.
Qed.

Lemma reachable_wf h : reachable h → wf h.
Proof.
  intros [ds Hds].
  destruct (decorateAll_total ds emptyHeap wf_emptyHeap) as (h' & Hrun & Hwf).
  congruence.
Qed.

(** A decoration of another class leaves a class's descriptor as it is. *)
Lemma decorate_frame d h h' c :
  wf h → decorate d h = Some (tt, h') → c ≠ decorated d →
  ownNgBaseDef h' !! c = ownNgBaseDef h !! c ∧
  ∀ k, ownMapping h' c k = ownMapping h c k.
Proof.
  intros Hwf Hrun Hne.
  destruct (decorate_effect d h Hwf) as (h2 & Hrun2 & _ & Hown & _ & Hmap).
  assert (h2 = h') as -> by congruence. split.
  - rewrite Hown. by apply ownNgBaseDef_ensured_ne.
  - intros k. rewrite Hmap. case_decide as Hd; [by destruct Hd|].
    by apply ownMapping_ensured_ne.
Qed.


(** Once owned, a descriptor stays: later decorations neither replace the
    descriptor object nor the objects its fields point to. *)
Lemma decorate_keeps_descriptor d h h' c l :
  wf h → decorate d h = Some (tt, h') → ownNgBaseDef h !! c = Some l →
  ownNgBaseDef h' !! c = Some l ∧ baseDefs h' !! l = baseDefs h !! l.
Proof.
  intros Hwf Hrun Hl.
  destruct (decorate_effect d h Hwf) as (h2 & Hrun2 & _ & Hown & Hdefs & _).
  assert (h2 = h') as -> by congruence. rewrite Hown, Hdefs.
  destruct (wf_own_alloc h Hwf c l Hl) as [b Hb].
  pose proof (wf_def_bound h Hwf l b Hb).
  unfold ensured. case_bool_decide as Hd; [done|]. simpl. split.
  - rewrite lookup_insert_ne; [done|]. intros E. apply Hd. rewrite E. eauto.
  - by rewrite lookup_insert_ne by lia.
Qed.

Lemma decorateAll_keeps_descriptor ds h c l :
  wf h → ownNgBaseDef h !! c = Some l →
  ∃ h', decorateAll ds h = Some (tt, h') ∧
        ownNgBaseDef h' !! c = Some l ∧ baseDefs h' !! l = baseDefs h !! l.
Proof.
  revert h. induction ds as [|d ds IH]; intros h Hwf Hl.
  - by exists h.
  - destruct (decorate_effect d h Hwf) as (h1 & Hrun & Hwf1 & _).
    rewrite (decorateAll_cons d ds h h1 Hrun).
    destruct (decorate_keeps_descriptor d h h1 c l Hwf Hrun Hl) as [Hl1 Hb1].
    destruct (IH h1 Hwf1 Hl1) as (h' & Hrun' & Hl' & Hb').
    exists h'. split_and!; try done. congruence.
Qed.

Lemma visibleMapping_unfold h c k :
  visibleMapping h c k =
  match ownNgBaseDef h !! c with
  | Some _ => ownMapping h c k
  | None => match c with [] => None | _ :: super => visibleMapping h super k end
  end.
Proof.
  unfold visibleMapping, ownMapping.
  destruct c; simpl; by destruct (ownNgBaseDef h !! _).
Qed.

Lemma visibleMapping_frame h h' c k :
  (∀ c', c' `suffix_of` c →
         ownNgBaseDef h' !! c' = ownNgBaseDef h !! c' ∧
         ownMapping h' c' k = ownMapping h c' k) →
  visibleMapping h' c k = visibleMapping h c k.
Proof.
  induction c as [|x c IH]; intros Hfr;
    rewrite (visibleMapping_unfold h' _), (visibleMapping_unfold h _).
  - destruct (Hfr [] (reflexivity _)) as [-> ->]. done.
  - destruct (Hfr (x :: c) (reflexivity _)) as [-> ->].
    destruct (ownNgBaseDef h !! (x :: c)); [done|].
    apply IH. intros c' Hc'. apply Hfr. by apply suffix_cons_r.
Qed.

Lemma not_suffix_of_proper (x : nat) (pre sup c' : list nat) :
  c' `suffix_of` sup → c' ≠ x :: pre ++ sup.
Proof.
  intros Hs ->. apply suffix_length in Hs.
  rewrite length_cons, length_app in Hs. lia.
Qed.

Lemma visibleMapping_is_Some h c l k :
  wf h → lookupNgBaseDef h c = Some l → is_Some (visibleMapping h c k).
Proof.
  intros Hwf Hl. unfold visibleMapping, mappingAt. rewrite Hl. simpl.
  destruct (wf_lookup_alloc h Hwf c l Hl) as [b Hb]. rewrite Hb. simpl.
  destruct (wf_def_field h Hwf l b k Hb) as (m & o & F & Ho).
  rewrite F. simpl. rewrite Ho. eauto.
Qed.

Lemma lookupNgBaseDef_not_own h x sup :
  ownNgBaseDef h !! (x :: sup) = None →
  lookupNgBaseDef h (x :: sup) = lookupNgBaseDef h sup.
Proof. intros H. simpl. by rewrite H. Qed.

Lemma decorate_declaredInputs d h h' :
  wf h → decorate d h = Some (tt, h') →
  ∀ c, ownMapping h' c CDeclaredInputs =
       ownMapping (ensured h (decorated d)) c CDeclaredInputs.
Proof.
  intros Hwf Hrun c.
  destruct (decorate_effect d h Hwf) as (h2 & Hrun2 & _ & _ & _ & Hmap).
  assert (h2 = h') as -> by congruence. rewrite Hmap.
  rewrite decide_False; [done|]. intros [_ E]. by destruct d.
Qed.

Lemma decorate_noEntries d h h' c :
  wf h → decorate d h = Some (tt, h') →
  noEntries (visibleMapping h c CDeclaredInputs) →
  noEntries (visibleMapping h' c CDeclaredInputs).
Proof.
  intros Hwf Hrun.
  destruct (decorate_effect d h Hwf) as (h2 & Hrun2 & _ & Hown & _).
  assert (h2 = h') as -> by congruence.
  pose proof (decorate_declaredInputs d h h' Hwf Hrun) as Hdecl.
  assert (visibleMapping h' (decorated d) CDeclaredInputs =
          Some (inheritedMapping h (decorated d) CDeclaredInputs)) as HD.
  { rewrite visibleMapping_unfold, Hown, ensured_own, Hdecl.
    by apply ownMapping_ensured_eq. }
  assert (∀ c', c' ≠ decorated d →
            ownNgBaseDef h' !! c' = ownNgBaseDef h !! c' ∧
            ownMapping h' c' CDeclaredInputs = ownMapping h c' CDeclaredInputs)
    as Hne.
  { intros c' Hc'. rewrite Hown, Hdecl. split.
    - by apply ownNgBaseDef_ensured_ne.
    - by apply ownMapping_ensured_ne. }
  induction c as [|x c IH].
  - destruct (decide ([] = decorated d)) as [->|E].
    + intros Hno. by rewrite HD.
    + rewrite (visibleMapping_unfold h' _), (visibleMapping_unfold h _).
      by destruct (Hne _ E) as [-> ->].
  - destruct (decide (x :: c = decorated d)) as [->|E].
    + intros Hno. by rewrite HD.
    + rewrite (visibleMapping_unfold h' _), (visibleMapping_unfold h _).
      destruct (Hne _ E) as [-> ->].
      by destruct (ownNgBaseDef h !! (x :: c)).
Qed.

Lemma decorateAll_noEntries ds h c :
  wf h → noEntries (visibleMapping h c CDeclaredInputs) →
  ∃ h', decorateAll ds h = Some (tt, h') ∧
        noEntries (visibleMapping h' c CDeclaredInputs).
Proof.
  revert h. induction ds as [|d ds IH]; intros h Hwf Hno.
  - by exists h.
  - destruct (decorate_effect d h Hwf) as (h1 & Hrun & Hwf1 & _).
    rewrite (decorateAll_cons d ds h h1 Hrun). apply IH; [done|].
    by apply (decorate_noEntries d h h1 c Hwf Hrun).
Qed.

(** ** The sample heap *)

Lemma wf_baseHeap : wf baseHeap.
Proof. refine (bool_decide_unpack _ _). vm_compute. exact I. Qed.

Example baseHeap_reachable : reachable baseHeap.
Proof.
  exists [DInput (mkTarget Base) "a" [VString "a"]]. vm_compute. reflexivity.
Qed.

(** [@Input() name] on [Base], then [@Input('displayName') name] on
    [Derived]: the two descriptors afterwards. *)
Example Base_then_Derived :
  ∃ h,
    decorateAll [DInput (mkTarget Base) "name" [];
                 DInput (mkTarget Derived) "name" [VString "displayName"]]
      emptyHeap = Some (tt, h) ∧
    ownMapping h Base CInputs = Some {[ "name" := VUndefined ]} ∧
    ownMapping h Derived CInputs = Some {[ "name" := VString "displayName" ]} ∧
    ownMapping h Derived COutputs = Some ∅.
Proof. eexists. split; [vm_compute; reflexivity|]. by vm_compute. Qed.

(** * The claims *)



(** The superclass has [inputs = {a: "a"}]; the subclass is given its
    descriptor; then [b := "b2"] is added to the superclass. *)
Example snapshot_a_then_b :
  ∃ l h1 h2,
    ensureDescriptor (mkTarget Derived) baseHeap = Some (Some l, h1) ∧
    ownMapping h1 Derived CInputs = Some {[ "a" := VString "a" ]} ∧
    Input (mkTarget Base) "b" [VString "b2"] h1 = Some (tt, h2) ∧
    ownMapping h2 Base CInputs =
      Some {[ "a" := VString "a"; "b" := VString "b2" ]} ∧
    ownMapping h2 Derived CInputs = Some {[ "a" := VString "a" ]}.
Proof.
  eexists _, _, _. split; [vm_compute; reflexivity|].
  split; [by vm_compute|]. split; [vm_compute; reflexivity|].
  split; by vm_compute.
Qed.

(** C2. [Input] applied without a binding name stores [args[0]], which is
    [undefined]: on every well-formed heap the call returns, and the inputs
    mapping of the class then has the entry [foo := undefined], not
    [foo := "foo"]. It makes no difference whether the argument is left out
    or is [undefined]. *)
Theorem Input_without_alias_records_undefined h c foo args :
  wf h →
  arg0 args = VUndefined →
  ∃ h' o,
    Input (mkTarget c) foo args h = Some (tt, h') ∧
    ownMapping h' c CInputs = Some o ∧
    o !! foo = Some VUndefined ∧
    o !! foo ≠ Some (VString foo).
Proof.
  intros Hwf Hargs.
  destruct (updateBaseDefFromIOProp_effect h c CInputs foo args Hwf)
    as (h' & Hrun & _ & _ & _ & Hmap).
  exists h', (<[foo := VUndefined]> (inheritedMapping h c CInputs)).
  split; [exact Hrun|]. rewrite Hmap, decide_True, Hargs by done.
  by rewrite lookup_insert_eq.
Qed.

Lemma Input_without_alias_records_undefined_witness :
  ∃ h' o,
    Input (mkTarget Base) "foo" [] emptyHeap = Some (tt, h') ∧
    ownMapping h' Base CInputs = Some o ∧
    o !! "foo" = Some VUndefined ∧
    o !! "foo" ≠ Some (VString "foo").
Proof.
  apply (Input_without_alias_records_undefined emptyHeap Base "foo" []).
  - refine (bool_decide_unpack _ _). vm_compute. exact I.
  - reflexivity.
Defined.

(** [@Input() foo] on a class without descriptor, from the heap with no
    descriptor at all. *)
Example Input_foo_on_Base :
  ∃ h,
    Input (mkTarget Base) "foo" [] emptyHeap = Some (tt, h) ∧
    ownMapping h Base CInputs = Some {[ "foo" := VUndefined ]}.
Proof. eexists. split; [vm_compute; reflexivity|]. by vm_compute. Qed.



(** The superclass has [inputs = {a: "a"}]; the subclass binds [a] to ["y"]
    and ends with [inputs = {a: "y"}]. *)
Example override_inherited_a :
  inheritedMapping baseHeap Derived CInputs = {[ "a" := VString "a" ]} ∧
  ∃ h,
    Input (mkTarget Derived) "a" [VString "y"] baseHeap = Some (tt, h) ∧
    ownMapping h Derived CInputs = Some {[ "a" := VString "y" ]} ∧
    ownMapping h Base CInputs = Some {[ "a" := VString "a" ]}.
Proof.
  split; [by vm_compute|]. eexists. split; [vm_compute; reflexivity|].
  by vm_compute.
Qed.

(** C4. On a well-formed heap [ensureDescriptor] returns a descriptor; a
    second call right after it returns the same descriptor object and
    leaves the heap as it is; and after any sequence of decorations the
    class still owns that same object, with the same three mapping
    objects in its fields. *)
Theorem ensureDescriptor_idempotent h c :
  wf h →
  ∃ l h1,
    ensureDescriptor (mkTarget c) h = Some (Some l, h1) ∧
    ensureDescriptor (mkTarget c) h1 = Some (Some l, h1) ∧
    ∀ ds, ∃ h2,
      decorateAll ds h1 = Some (tt, h2) ∧
      ownNgBaseDef h2 !! c = Some l ∧
      baseDefs h2 !! l = baseDefs h1 !! l.
Proof.
  intros Hwf. pose proof (wf_ensured h c Hwf) as Hwf1.
  pose proof (ensured_own h c) as Hown.
  eexists _, (ensured h c). split_and!.
  - by rewrite ensureDescriptor_run, Hown.
  - rewrite ensureDescriptor_run by done.
    assert (ensured (ensured h c) c = ensured h c) as ->.
    { unfold ensured at 1. rewrite bool_decide_eq_true_2; [done|].
      rewrite Hown. eauto. }
    by rewrite Hown.
  - intros ds. by apply decorateAll_keeps_descriptor.
Qed.

Lemma ensureDescriptor_idempotent_witness :
  ∃ l h1,
    ensureDescriptor (mkTarget Derived) baseHeap = Some (Some l, h1) ∧
    ensureDescriptor (mkTarget Derived) h1 = Some (Some l, h1) ∧
    ∀ ds, ∃ h2,
      decorateAll ds h1 = Some (tt, h2) ∧
      ownNgBaseDef h2 !! Derived = Some l ∧
      baseDefs h2 !! l = baseDefs h1 !! l.
Proof.
  apply (ensureDescriptor_idempotent baseHeap Derived).
  refine (bool_decide_unpack _ _). vm_compute. exact I.
Defined.

(** C5. When [initializeBaseDef] runs for a class [x :: sup] that owns no
    descriptor, and [sup] has a descriptor at [lS], its own or an inherited
    one, then the class gets a new descriptor, a different object, each of
    whose three mappings has the entries of the corresponding mapping of
    the descriptor at [lS]. *)
Theorem initializeBaseDef_copies_superclass h x sup lS :
  wf h →
  ownNgBaseDef h !! (x :: sup) = None →
  lookupNgBaseDef h sup = Some lS →
  ∃ h' l,
    initializeBaseDef (mkTarget (x :: sup)) h = Some (tt, h') ∧
    ownNgBaseDef h' !! (x :: sup) = Some l ∧
    l ≠ lS ∧
    ∀ k, ∃ o, mappingAt h lS k = Some o ∧ mappingAt h' l k = Some o.
Proof.
  intros Hwf Hnown HlS.
  destruct (wf_lookup_alloc h Hwf sup lS HlS) as [bS HbS].
  pose proof (wf_def_bound h Hwf lS bS HbS).
  exists (initialized h (x :: sup)), (3 + nextLoc h). split_and!.
  - by apply initializeBaseDef_run.
  - simpl. by rewrite lookup_insert_eq.
  - lia.
  - intros k.
    destruct (visibleMapping_is_Some h sup lS k Hwf HlS) as [o Ho].
    exists o. pose proof (ownMapping_initialized_eq h (x :: sup) k) as Hnew.
    unfold inheritedMapping, visibleMapping in Hnew.
    rewrite (lookupNgBaseDef_not_own h x sup Hnown) in Hnew.
    unfold visibleMapping in Ho. rewrite HlS in *. simpl in *.
    rewrite Ho in Hnew. split; [done|].
    unfold ownMapping in Hnew. simpl in Hnew.
    by rewrite lookup_insert_eq in Hnew.
Qed.

Lemma initializeBaseDef_copies_superclass_witness :
  ∃ h' l,
    initializeBaseDef (mkTarget Derived) baseHeap = Some (tt, h') ∧
    ownNgBaseDef h' !! Derived = Some l ∧
    l ≠ 3 ∧
    ∀ k, ∃ o, mappingAt baseHeap 3 k = Some o ∧ mappingAt h' l k = Some o.
Proof.
  apply (initializeBaseDef_copies_superclass baseHeap 2 Base 3).
  - refine (bool_decide_unpack _ _). vm_compute. exact I.
  - vm_compute. reflexivity.
  - vm_compute. reflexivity.
Defined.

(** C6. A decoration creates a descriptor exactly when the decorated class
    does not own one. If the class owns a descriptor, the ownership table
    and the descriptor objects are left as they are. If it does not, a
    descriptor object at a location that was free is created and becomes
    the class's own, also when the class sees a descriptor of an ancestor
    through its prototype chain: the new object is not that one. *)
Theorem descriptor_created_iff_not_owned h d :
  wf h →
  ∃ h',
    decorate d h = Some (tt, h') ∧
    match ownNgBaseDef h !! decorated d with
    | Some l =>
        ownNgBaseDef h' = ownNgBaseDef h ∧ baseDefs h' = baseDefs h
    | None =>
        ∃ l b,
          baseDefs h !! l = None ∧
          lookupNgBaseDef h (decorated d) ≠ Some l ∧
          ownNgBaseDef h' = <[decorated d := l]> (ownNgBaseDef h) ∧
          baseDefs h' = <[l := b]> (baseDefs h)
    end.
Proof.
  intros Hwf.
  destruct (decorate_effect d h Hwf) as (h' & Hrun & _ & Hown & Hdefs & _).
  exists h'. split; [done|]. rewrite Hown, Hdefs. unfold ensured.
  destruct (ownNgBaseDef h !! decorated d) as [l|] eqn:Hl.
  - by rewrite bool_decide_eq_true_2 by eauto.
  - rewrite bool_decide_eq_false_2 by (by intros [? ?]). simpl.
    eexists _, _. split_and!; try done.
    + destruct (baseDefs h !! _) as [b|] eqn:Hb; [|done].
      pose proof (wf_def_bound h Hwf _ b Hb). lia.
    + intros Hlook.
      destruct (wf_lookup_alloc h Hwf _ _ Hlook) as [b Hb].
      pose proof (wf_def_bound h Hwf _ b Hb). lia.
Qed.

Lemma descriptor_created_iff_not_owned_witness :
  ∃ h',
    decorate (DOutput (mkTarget Derived) "changed" []) baseHeap =
      Some (tt, h') ∧
    match ownNgBaseDef baseHeap !! Derived with
    | Some l =>
        ownNgBaseDef h' = ownNgBaseDef baseHeap ∧
        baseDefs h' = baseDefs baseHeap
    | None =>
        ∃ l b,
          baseDefs baseHeap !! l = None ∧
          lookupNgBaseDef baseHeap Derived ≠ Some l ∧
          ownNgBaseDef h' = <[Derived := l]> (ownNgBaseDef baseHeap) ∧
          baseDefs h' = <[l := b]> (baseDefs baseHeap)
    end.
Proof.
  apply (descriptor_created_iff_not_owned baseHeap
           (DOutput (mkTarget Derived) "changed" [])).
  refine (bool_decide_unpack _ _). vm_compute. exact I.
Defined.

(** [Derived] sees the descriptor of [Base] before its first decoration and
    owns another one after it; a decoration of [Base], which owns one,
    creates none. *)
Example first_decoration_of_Derived :
  lookupNgBaseDef baseHeap Derived = Some 3 ∧
  ownNgBaseDef baseHeap !! Derived = None ∧
  ∃ h h',
    Input (mkTarget Derived) "b" [] baseHeap = Some (tt, h) ∧
    ownNgBaseDef h !! Derived = Some 7 ∧
    ownNgBaseDef h !! Base = Some 3 ∧
    Input (mkTarget Base) "b" [] baseHeap = Some (tt, h') ∧
    ownNgBaseDef h' = ownNgBaseDef baseHeap ∧
    baseDefs h' = baseDefs baseHeap.
Proof.
  split; [by vm_compute|]. split; [by vm_compute|]. eexists _, _.
  split; [vm_compute; reflexivity|].
  split; [by vm_compute|]. split; [by vm_compute|].
  split; [vm_compute; reflexivity|]. split; by vm_compute.
Qed.

(** C7. Let [sup] be a superclass of the decorated class, at any distance.
    Neither [ensureDescriptor] on the subclass nor the decoration itself
    changes what [sup] owns, the three mappings of the descriptor [sup]
    owns, or the three mappings [sup] sees through its prototype chain. *)
Theorem subclass_leaves_superclass_descriptor h d x pre sup :
  wf h → decorated d = x :: pre ++ sup →
  ∃ l h1 h',
    ensureDescriptor (mkTarget (decorated d)) h = Some (l, h1) ∧
    decorate d h = Some (tt, h') ∧
    ownNgBaseDef h1 !! sup = ownNgBaseDef h !! sup ∧
    ownNgBaseDef h' !! sup = ownNgBaseDef h !! sup ∧
    ∀ k, ownMapping h1 sup k = ownMapping h sup k ∧
         ownMapping h' sup k = ownMapping h sup k ∧
         visibleMapping h1 sup k = visibleMapping h sup k ∧
         visibleMapping h' sup k = visibleMapping h sup k.
Proof.
  intros Hwf HD.
  destruct (decorate_effect d h Hwf) as (h' & Hrun & _).
  eexists _, _, h'. split; [by apply ensureDescriptor_run|].
  split; [done|].
  assert (∀ c', c' `suffix_of` sup → c' ≠ decorated d) as Hne.
  { intros c' Hc'. rewrite HD. by apply not_suffix_of_proper. }
  assert (∀ c' k, c' `suffix_of` sup →
    (ownNgBaseDef h' !! c' = ownNgBaseDef h !! c' ∧
     ownMapping h' c' k = ownMapping h c' k) ∧
    (ownNgBaseDef (ensured h (decorated d)) !! c' = ownNgBaseDef h !! c' ∧
     ownMapping (ensured h (decorated d)) c' k = ownMapping h c' k)) as Hfr.
  { intros c' k Hc'. specialize (Hne c' Hc').
    destruct (decorate_frame d h h' c' Hwf Hrun Hne) as [? ?].
    split_and!; try done.
    - by apply ownNgBaseDef_ensured_ne.
    - by apply ownMapping_ensured_ne. }
  split_and!.
  - apply (Hfr sup CInputs). done.
  - apply (Hfr sup CInputs). done.
  - intros k. split_and!.
    + by apply (Hfr sup k).
    + by apply (Hfr sup k).
    + apply visibleMapping_frame. intros c' Hc'. by apply (Hfr c' k).
    + apply visibleMapping_frame. intros c' Hc'. by apply (Hfr c' k).
Qed.

Lemma subclass_leaves_superclass_descriptor_witness :
  ∃ l h1 h',
    ensureDescriptor (mkTarget Derived) baseHeap = Some (l, h1) ∧
    decorate (DInput (mkTarget Derived) "a" [VString "displayName"]) baseHeap =
      Some (tt, h') ∧
    ownNgBaseDef h1 !! Base = ownNgBaseDef baseHeap !! Base ∧
    ownNgBaseDef h' !! Base = ownNgBaseDef baseHeap !! Base ∧
    ∀ k, ownMapping h1 Base k = ownMapping baseHeap Base k ∧
         ownMapping h' Base k = ownMapping baseHeap Base k ∧
         visibleMapping h1 Base k = visibleMapping baseHeap Base k ∧
         visibleMapping h' Base k = visibleMapping baseHeap Base k.
Proof.
  apply (subclass_leaves_superclass_descriptor baseHeap
           (DInput (mkTarget Derived) "a" [VString "displayName"]) 2 [] Base).
  - refine (bool_decide_unpack _ _). vm_compute. exact I.
  - reflexivity.
Defined.

(** C8. Recording an input binding leaves the outputs and declaredInputs
    mappings of the class's descriptor as [ensureDescriptor] hands them
    over, which is as the class had or inherited them before the call; and
    recording an output binding leaves inputs and declaredInputs so. *)
Theorem categories_are_independent h c p args :
  wf h →
  ∃ l h1 hI hO,
    ensureDescriptor (mkTarget c) h = Some (Some l, h1) ∧
    (∀ k, ownMapping h1 c k = Some (inheritedMapping h c k)) ∧
    Input (mkTarget c) p args h = Some (tt, hI) ∧
    ownMapping hI c COutputs = ownMapping h1 c COutputs ∧
    ownMapping hI c CDeclaredInputs = ownMapping h1 c CDeclaredInputs ∧
    Output (mkTarget c) p args h = Some (tt, hO) ∧
    ownMapping hO c CInputs = ownMapping h1 c CInputs ∧
    ownMapping hO c CDeclaredInputs = ownMapping h1 c CDeclaredInputs.
Proof.
  intros Hwf.
  pose proof (ensured_own h c) as Hown.
  destruct (updateBaseDefFromIOProp_effect h c CInputs p args Hwf)
    as (hI & HrunI & _ & _ & _ & HmapI).
  destruct (updateBaseDefFromIOProp_effect h c COutputs p args Hwf)
    as (hO & HrunO & _ & _ & _ & HmapO).
  eexists _, (ensured h c), hI, hO. split_and!; try done.
  - by rewrite ensureDescriptor_run, Hown.
  - intros k. by apply ownMapping_ensured_eq.
  - rewrite HmapI. by rewrite decide_False by (by intros [_ ?]).
  - rewrite HmapI. by rewrite decide_False by (by intros [_ ?]).
  - rewrite HmapO. by rewrite decide_False by (by intros [_ ?]).
  - rewrite HmapO. by rewrite decide_False by (by intros [_ ?]).
Qed.

Lemma categories_are_independent_witness :
  ∃ l h1 hI hO,
    ensureDescriptor (mkTarget Base) baseHeap = Some (Some l, h1) ∧
    (∀ k, ownMapping h1 Base k = Some (inheritedMapping baseHeap Base k)) ∧
    Input (mkTarget Base) "p" [VString "q"] baseHeap = Some (tt, hI) ∧
    ownMapping hI Base COutputs = ownMapping h1 Base COutputs ∧
    ownMapping hI Base CDeclaredInputs = ownMapping h1 Base CDeclaredInputs ∧
    Output (mkTarget Base) "p" [VString "q"] baseHeap = Some (tt, hO) ∧
    ownMapping hO Base CInputs = ownMapping h1 Base CInputs ∧
    ownMapping hO Base CDeclaredInputs = ownMapping h1 Base CDeclaredInputs.
Proof.
  apply (categories_are_independent baseHeap Base "p" [VString "q"]).
  refine (bool_decide_unpack _ _). vm_compute. exact I.
Defined.

(** An input [p] recorded on [Base], whose descriptor has
    [inputs = {a: "a"}] and nothing else. *)
Example input_p_on_Base :
  ∃ h,
    Input (mkTarget Base) "p" [VString "q"] baseHeap = Some (tt, h) ∧
    ownMapping h Base CInputs =
      Some {[ "a" := VString "a"; "p" := VString "q" ]} ∧
    ownMapping h Base COutputs = Some ∅ ∧
    ownMapping h Base CDeclaredInputs = Some ∅.
Proof.
  eexists. split; [vm_compute; reflexivity|]. split_and!; by vm_compute.
Qed.

(** C9. No decoration writes to a declaredInputs mapping: after an [Input]
    or [Output] decoration every class has the declaredInputs mapping it
    has after [ensureDescriptor] alone, which for the decorated class is
    the one it had or inherited. Hence, for a class [x :: sup] without a
    descriptor whose superclass sees no descriptor or one with an empty
    declaredInputs mapping, the mapping is empty after any sequence of
    decorations, whenever the class owns a descriptor then. *)
Theorem declaredInputs_only_inherited h :
  wf h →
  (∀ d, ∃ l h1 h',
     ensureDescriptor (mkTarget (decorated d)) h = Some (l, h1) ∧
     decorate d h = Some (tt, h') ∧
     ownMapping h1 (decorated d) CDeclaredInputs =
       Some (inheritedMapping h (decorated d) CDeclaredInputs) ∧
     ∀ c, ownMapping h' c CDeclaredInputs = ownMapping h1 c CDeclaredInputs) ∧
  (∀ x sup ds,
     ownNgBaseDef h !! (x :: sup) = None →
     noEntries (visibleMapping h sup CDeclaredInputs) →
     ∃ h',
       decorateAll ds h = Some (tt, h') ∧
       ∀ o, ownMapping h' (x :: sup) CDeclaredInputs = Some o → o = ∅).
Proof.
  intros Hwf. split.
  - intros d. destruct (decorate_effect d h Hwf) as (h' & Hrun & _).
    eexists _, _, h'. split; [by apply ensureDescriptor_run|].
    split_and!; try done.
    + by apply ownMapping_ensured_eq.
    + by apply decorate_declaredInputs.
  - intros x sup ds Hnown Hno.
    destruct (decorateAll_noEntries ds h (x :: sup) Hwf) as (h' & Hrun & Hno').
    { by rewrite visibleMapping_unfold, Hnown. }
    exists h'. split; [done|]. intros o Ho.
    rewrite visibleMapping_unfold in Hno'. unfold ownMapping in Ho.
    destruct (ownNgBaseDef h' !! (x :: sup)) as [l|] eqn:Hl; [|done].
    unfold ownMapping in Hno'. rewrite Hl in Hno'. simpl in *.
    by rewrite Ho in Hno'.
Qed.

Lemma declaredInputs_only_inherited_witness :
  (∀ d, ∃ l h1 h',
     ensureDescriptor (mkTarget (decorated d)) baseHeap = Some (l, h1) ∧
     decorate d baseHeap = Some (tt, h') ∧
     ownMapping h1 (decorated d) CDeclaredInputs =
       Some (inheritedMapping baseHeap (decorated d) CDeclaredInputs) ∧
     ∀ c, ownMapping h' c CDeclaredInputs = ownMapping h1 c CDeclaredInputs) ∧
  (∃ h',
     decorateAll [DInput (mkTarget Derived) "b" [VString "bee"];
                  DOutput (mkTarget Derived) "changed" []] baseHeap =
       Some (tt, h') ∧
     ∀ o, ownMapping h' Derived CDeclaredInputs = Some o → o = ∅).
Proof.
  destruct (declaredInputs_only_inherited baseHeap) as [Hframe Hempty].
  - refine (bool_decide_unpack _ _). vm_compute. exact I.
  - split; [exact Hframe|]. apply (Hempty 2 Base).
    + vm_compute. reflexivity.
    + vm_compute. reflexivity.
Defined.

(** [Derived] is decorated three times, [Base] once more: the
    declaredInputs mapping of [Derived] is there and empty. *)
Example Derived_declaredInputs_empty :
  ownNgBaseDef baseHeap !! Derived = None ∧
  noEntries (visibleMapping baseHeap Base CDeclaredInputs) ∧
  ∃ h,
    decorateAll [DInput (mkTarget Derived) "b" [VString "bee"];
                 DOutput (mkTarget Derived) "changed" [];
                 DInput (mkTarget Base) "c" [];
                 DInput (mkTarget Derived) "a" [VString "alias"]]
      baseHeap = Some (tt, h) ∧
    ownMapping h Derived CDeclaredInputs = Some ∅.
Proof.
  split; [by vm_compute|]. split; [by vm_compute|].
  eexists. split; [vm_compute; reflexivity|]. by vm_compute.
Qed.

(** C10. The metadata the [Pipe] decorator produces has every property of
    the metadata passed in, with its value; [pure] is [true] when the
    metadata passed in has no [pure] property; and it has no other
    property. *)
Theorem Pipe_pure_default (p : object) (k : string) :
  Pipe_props p !! k =
  match p !! k with
  | Some v => Some v
  | None => if decide (k = "pure") then Some (VBool true) else None
  end.
Proof.
  unfold Pipe_props, spread. rewrite lookup_union.
  destruct (p !! k) as [v|]; simpl.
  - by destruct ({[ "pure" := VBool true ]} !! k).
  - rewrite lookup_singleton. by repeat case_decide.
Qed.

Example Pipe_props_pure :
  Pipe_props {[ "name" := VString "x" ]} !! "pure" = Some (VBool true) ∧
  Pipe_props {[ "name" := VString "x" ]} !! "name" = Some (VString "x") ∧
  Pipe_props {[ "name" := VString "x"; "pure" := VBool false ]} !! "pure" =
    Some (VBool false).
Proof. split_and!; by vm_compute. Qed.

(** * Further properties of the decorators *)

(** ** Auxiliary facts *)



Lemma ensured_owned h c : is_Some (ownNgBaseDef h !! c) → ensured h c = h.
Proof. intros Hc. unfold ensured. by rewrite bool_decide_eq_true_2. Qed.




Lemma visibleMapping_owner h c k o :
  visibleMapping h c k = Some o →
  ∃ c0, c0 `suffix_of` c ∧ ownMapping h c0 k = Some o.
Proof.
  induction c as [|x c IH]; rewrite visibleMapping_unfold;
    destruct (ownNgBaseDef h !! _); try done; intros Ho.
  - by exists [].
  - by exists (x :: c).
  - destruct (IH Ho) as (c0 & Hc0 & Ho0). exists c0.
    split; [by apply suffix_cons_r|done].
Qed.

Lemma declaredBy_inherited ds h c k n v :
  declaredBy ds h → inheritedMapping h c k !! n = Some v →
  ∃ d, d ∈ ds ∧ decorated d `suffix_of` c ∧ writtenCategory d = k ∧
       writtenName d = n ∧ writtenValue d = v.
Proof.
  intros Hby. unfold inheritedMapping.
  destruct (visibleMapping h c k) as [o|] eqn:Hvis; simpl; [|done].
  intros Hn. destruct (visibleMapping_owner h c k o Hvis) as (c0 & Hc0 & Ho).
  destruct (Hby c0 k o n v Ho Hn) as (d & Hd & Hsuf & ?).
  exists d. split; [done|]. split; [|done]. by etrans.
Qed.

Lemma decorate_declaredBy ds d h h' :
  wf h → declaredBy ds h → decorate d h = Some (tt, h') →
  declaredBy (ds ++ [d]) h'.
Proof.
  intros Hwf Hby Hrun c k o n v.
  destruct (decorate_effect d h Hwf) as (h2 & Hrun2 & _ & _ & _ & Hmap).
  assert (h2 = h') as -> by congruence. rewrite Hmap.
  assert (∀ d0, (d0 ∈ ds ∧ decorated d0 `suffix_of` c ∧
                 writtenCategory d0 = k ∧ writtenName d0 = n ∧
                 writtenValue d0 = v) →
            ∃ d1, d1 ∈ ds ++ [d] ∧ decorated d1 `suffix_of` c ∧
                  writtenCategory d1 = k ∧ writtenName d1 = n ∧
                  writtenValue d1 = v) as Hweaken.
  { intros d0 (? & ?). exists d0. split; [|done]. apply elem_of_app. by left. }
  case_decide as Hd.
  - destruct Hd as [-> ->]. intros [= <-].
    destruct (decide (n = writtenName d)) as [->|Hne].
    + rewrite lookup_insert_eq. intros [= <-]. exists d.
      split; [apply elem_of_app; right; by apply list_elem_of_singleton|done].
    + rewrite lookup_insert_ne by done. intros Hn.
      destruct (declaredBy_inherited ds h _ _ n v Hby Hn) as (d0 & ?).
      by apply (Hweaken d0).
  - destruct (decide (c = decorated d)) as [->|Hc].
    + rewrite ownMapping_ensured_eq by done. intros [= <-] Hn.
      destruct (declaredBy_inherited ds h _ _ n v Hby Hn) as (d0 & ?).
      by apply (Hweaken d0).
    + rewrite ownMapping_ensured_ne by done. intros Ho Hn.
      destruct (Hby c k o n v Ho Hn) as (d0 & ?). by apply (Hweaken d0).
Qed.

Lemma decorateAll_declaredBy ds0 ds h h' :
  wf h → declaredBy ds0 h → decorateAll ds h = Some (tt, h') →
  declaredBy (ds0 ++ ds) h'.
Proof.
  revert ds0 h. induction ds as [|d ds IH]; intros ds0 h Hwf Hby Hrun.
  - simpl in Hrun. injection Hrun as <-. by rewrite app_nil_r.
  - destruct (decorate_effect d h Hwf) as (h1 & Hrun1 & Hwf1 & _).
    rewrite (decorateAll_cons d ds h h1 Hrun1) in Hrun.
    rewrite (cons_middle d ds0 ds), (assoc_L (++)).
    apply (IH _ h1); [done| |done]. by apply (decorate_declaredBy ds0 d h).
Qed.

(** The decoration of a class that owns its descriptor, in closed form. *)
Lemma decorate_owned_run d h l b m o :
  wf h →
  ownNgBaseDef h !! decorated d = Some l →
  baseDefs h !! l = Some b →
  field (writtenCategory d) b = Some m →
  objects h !! m = Some o →
  decorate d h = Some (tt, written h m (writtenName d) (writtenValue d) o).
Proof.
  intros Hwf Hl Hb F Ho.
  assert (∃ l' b' m' o',
    ownNgBaseDef (ensured h (decorated d)) !! decorated d = Some l' ∧
    baseDefs (ensured h (decorated d)) !! l' = Some b' ∧
    field (writtenCategory d) b' = Some m' ∧
    objects (ensured h (decorated d)) !! m' = Some o' ∧
    decorate d h = Some (tt, written (ensured h (decorated d)) m'
                               (writtenName d) (writtenValue d) o'))
    as (l' & b' & m' & o' & Hl' & Hb' & F' & Ho' & Hrun).
  { destruct d as [[c] name args|[c] name args]; simpl.
    - apply (updateBaseDefFromIOProp_run h c CInputs name args Hwf).
    - apply (updateBaseDefFromIOProp_run h c COutputs name args Hwf). }
  rewrite (ensured_owned h (decorated d)) in * by eauto.
  by simplify_eq.
Qed.

Lemma decorate_ensured d h :
  wf h → decorate d (ensured h (decorated d)) = decorate d h.
Proof.
  intros Hwf.
  assert (∃ l b m o,
    ownNgBaseDef (ensured h (decorated d)) !! decorated d = Some l ∧
    baseDefs (ensured h (decorated d)) !! l = Some b ∧
    field (writtenCategory d) b = Some m ∧
    objects (ensured h (decorated d)) !! m = Some o ∧
    decorate d h = Some (tt, written (ensured h (decorated d)) m
                               (writtenName d) (writtenValue d) o))
    as (l & b & m & o & Hl & Hb & F & Ho & Hrun).
  { destruct d as [[c] name args|[c] name args]; simpl.
    - apply (updateBaseDefFromIOProp_run h c CInputs name args Hwf).
    - apply (updateBaseDefFromIOProp_run h c COutputs name args Hwf). }
  rewrite Hrun. apply (decorate_owned_run d _ l b m o); try done.
  by apply wf_ensured.
Qed.

Lemma decorateAll_two d1 d2 h h1 :
  decorate d1 h = Some (tt, h1) → decorateAll [d1; d2] h = decorate d2 h1.
Proof.
  intros Hrun. rewrite (decorateAll_cons d1 [d2] h h1 Hrun). simpl.
  unfold mbind, M_bind. by destruct (decorate d2 h1) as [[[] ?]|].
Qed.

(** The mapping objects of the descriptor a class owns. *)
Lemma owned_fields h c :
  wf h → is_Some (ownNgBaseDef h !! c) →
  ∃ l b, ownNgBaseDef h !! c = Some l ∧ baseDefs h !! l = Some b ∧
         ∀ k, ∃ m o, field k b = Some m ∧ objects h !! m = Some o.
Proof.
  intros Hwf [l Hl]. destruct (wf_own_alloc h Hwf c l Hl) as [b Hb].
  exists l, b. split_and!; try done. intros k. by eapply wf_def_field.
Qed.

Example derivedHeap_run :
  decorateAll [DInput (mkTarget Base) "a" [VString "a"];
               DInput (mkTarget Derived) "b" []] emptyHeap =
  Some (tt, derivedHeap).
Proof. vm_compute. reflexivity. Qed.

(** ** The properties *)

(** X1. On a well-formed heap no sequence of [Input] and [Output]
    decorations throws: [constructor.ngBaseDef] is never [undefined] where
    [getProp] reads it, and every reference read is allocated. The heap
    left behind is well-formed again. *)
Theorem decorations_never_throw h ds :
  wf h → ∃ h', decorateAll ds h = Some (tt, h') ∧ wf h'.
Proof. apply decorateAll_total. Qed.

Lemma decorations_never_throw_witness :
  ∃ h',
    decorateAll [DInput (mkTarget Derived) "b" [];
                 DOutput (mkTarget Base) "changed" [VString "change"];
                 DInput (mkTarget [3; 2; 1]) "c" [VString "sea"]] baseHeap =
      Some (tt, h') ∧
    wf h'.
Proof.
  apply (decorations_never_throw baseHeap).
  refine (bool_decide_unpack _ _). vm_compute. exact I.
Defined.





(** X4. After a sequence of decorations a class owns a descriptor exactly
    when it owned one before or is the target of one of the decorations: a
    decoration gives a descriptor to the decorated class and to no other
    class, and no class loses its descriptor. *)
Theorem owner_iff_decorated h ds :
  wf h →
  ∃ h',
    decorateAll ds h = Some (tt, h') ∧
    ∀ c, is_Some (ownNgBaseDef h' !! c) ↔
         is_Some (ownNgBaseDef h !! c) ∨ c ∈ decorated <$> ds.
Proof.
  revert h. induction ds as [|d ds IH]; intros h Hwf.
  - exists h. split; [done|]. intros c. simpl. rewrite elem_of_nil. tauto.
  - destruct (decorate_effect d h Hwf) as (h1 & Hrun & Hwf1 & Hown & _).
    rewrite (decorateAll_cons d ds h h1 Hrun).
    destruct (IH h1 Hwf1) as (h' & Hrun' & Hiff).
    exists h'. split; [done|]. intros c. rewrite Hiff, Hown.
    rewrite fmap_cons, elem_of_cons.
    destruct (decide (c = decorated d)) as [->|Hc].
    + rewrite ensured_own. split; [|eauto]. intros _. right. by left.
    + rewrite ownNgBaseDef_ensured_ne by done. tauto.
Qed.

Lemma owner_iff_decorated_witness :
  ∃ h',
    decorateAll [DInput (mkTarget [3; 2; 1]) "c" [];
                 DOutput (mkTarget [3; 2; 1]) "d" []] baseHeap =
      Some (tt, h') ∧
    ∀ c, is_Some (ownNgBaseDef h' !! c) ↔
         is_Some (ownNgBaseDef baseHeap !! c) ∨
         c ∈ decorated <$> [DInput (mkTarget [3; 2; 1]) "c" [];
                            DOutput (mkTarget [3; 2; 1]) "d" []].
Proof.
  apply (owner_iff_decorated baseHeap).
  refine (bool_decide_unpack _ _). vm_compute. exact I.
Defined.

(** X5. Starting with no descriptor at all, every entry of every mapping
    of every descriptor was written by one of the decorations that ran: a
    decoration for that mapping, with that property name and that value,
    of the class itself or of one of its ancestors. The decorators invent
    no binding, and neither mapping receives entries of the other. *)
Theorem bindings_come_from_decorations ds h c k o n v :
  decorateAll ds emptyHeap = Some (tt, h) →
  ownMapping h c k = Some o →
  o !! n = Some v →
  ∃ d, d ∈ ds ∧ decorated d `suffix_of` c ∧ writtenCategory d = k ∧
       writtenName d = n ∧ writtenValue d = v.
Proof.
  intros Hrun.
  apply (decorateAll_declaredBy [] ds emptyHeap h wf_emptyHeap); [|done].
  intros c' k' o' n' v'. unfold ownMapping. simpl. by rewrite lookup_empty.
Qed.

Lemma bindings_come_from_decorations_witness :
  ∃ d,
    d ∈ [DInput (mkTarget Base) "a" [VString "a"];
         DInput (mkTarget Derived) "b" []] ∧
    decorated d `suffix_of` Derived ∧ writtenCategory d = CInputs ∧
    writtenName d = "a" ∧ writtenValue d = VString "a".
Proof.
  apply (bindings_come_from_decorations
           [DInput (mkTarget Base) "a" [VString "a"];
            DInput (mkTarget Derived) "b" []]
           derivedHeap Derived CInputs
           {[ "a" := VString "a"; "b" := VUndefined ]} "a" (VString "a")).
  - vm_compute. reflexivity.
  - vm_compute. reflexivity.
  - vm_compute. reflexivity.
Defined.





(** In the sample heap the subclass would have inherited no entry for
    [b]: the two orders give different descriptors. *)
Example decoration_order_shows :
  inheritedMapping baseHeap Derived CInputs !! "b" = None.
Proof. by vm_compute. Qed.

(** X8. A decoration is masked by a later decoration of the same class for
    the same mapping and property name: the heap after the two is the heap
    after the later one alone, object for object. In particular a
    decoration applied twice has the effect of applying it once. *)
Theorem later_decoration_masks_earlier h d1 d2 :
  wf h → sameSlot d1 d2 →
  ∃ h', decorateAll [d1; d2] h = Some (tt, h') ∧
        decorate d2 h = Some (tt, h').
Proof.
  intros Hwf (Hc & Hk & Hn).
  pose proof (wf_ensured h (decorated d1) Hwf) as HwfE.
  pose proof (decorate_ensured d1 h Hwf) as He1.
  pose proof (decorate_ensured d2 h Hwf) as He2. rewrite <- Hc in He2.
  destruct (owned_fields _ (decorated d1) HwfE) as (l & b & Hl & Hb & Hf).
  { rewrite ensured_own. eauto. }
  destruct (Hf (writtenCategory d1)) as (m & o & F & Ho).
  assert (ownNgBaseDef (ensured h (decorated d1)) !! decorated d2 = Some l)
    as Hl2 by (by rewrite <- Hc).
  assert (field (writtenCategory d2) b = Some m) as F2 by (by rewrite <- Hk).
  pose proof (decorate_owned_run d1 _ l b m o HwfE Hl Hb F Ho) as Hrun1.
  rewrite He1 in Hrun1.
  rewrite (decorateAll_two d1 d2 h _ Hrun1), <- He2.
  rewrite (decorate_owned_run d2 _ l b m o HwfE Hl2 Hb F2 Ho).
  erewrite (decorate_owned_run d2 (written _ _ _ _ _) l b m);
    [|by apply wf_written|done|done|done|simpl; by rewrite lookup_insert_eq].
  eexists. split; [|done]. unfold written. simpl. do 3 f_equal.
  rewrite insert_insert_eq. by rewrite Hn, insert_insert_eq.
Qed.

Lemma later_decoration_masks_earlier_witness :
  ∃ h',
    decorateAll [DInput (mkTarget Derived) "a" [VString "x"];
                 DInput (mkTarget Derived) "a" [VString "y"]] baseHeap =
      Some (tt, h') ∧
    decorate (DInput (mkTarget Derived) "a" [VString "y"]) baseHeap =
      Some (tt, h').
Proof.
  apply (later_decoration_masks_earlier baseHeap
           (DInput (mkTarget Derived) "a" [VString "x"])
           (DInput (mkTarget Derived) "a" [VString "y"])).
  - refine (bool_decide_unpack _ _). vm_compute. exact I.
  - refine (bool_decide_unpack _ _). vm_compute. exact I.
Defined.

(** X9. Two decorations of one class that differ in the mapping or in the
    property name commute: both orders return, with the same heap, object
    for object, also when the first of them creates the descriptor. *)
Theorem decorations_of_a_class_commute h d1 d2 :
  wf h → decorated d1 = decorated d2 → ¬ sameSlot d1 d2 →
  ∃ h', decorateAll [d1; d2] h = Some (tt, h') ∧
        decorateAll [d2; d1] h = Some (tt, h').
Proof.
  intros Hwf Hc Hslot.
  pose proof (wf_ensured h (decorated d1) Hwf) as HwfE.
  pose proof (decorate_ensured d1 h Hwf) as He1.
  pose proof (decorate_ensured d2 h Hwf) as He2. rewrite <- Hc in He2.
  destruct (owned_fields _ (decorated d1) HwfE) as (l & b & Hl & Hb & Hf).
  { rewrite ensured_own. eauto. }
  destruct (Hf (writtenCategory d1)) as (m1 & o1 & F1 & Ho1).
  destruct (Hf (writtenCategory d2)) as (m2 & o2 & F2 & Ho2).
  assert (ownNgBaseDef (ensured h (decorated d1)) !! decorated d2 = Some l)
    as Hl2 by (by rewrite <- Hc).
  pose proof (decorate_owned_run d1 _ l b m1 o1 HwfE Hl Hb F1 Ho1) as Hrun1.
  pose proof (decorate_owned_run d2 _ l b m2 o2 HwfE Hl2 Hb F2 Ho2) as Hrun2.
  rewrite He1 in Hrun1. rewrite He2 in Hrun2.
  rewrite (decorateAll_two d1 d2 h _ Hrun1), (decorateAll_two d2 d1 h _ Hrun2).
  destruct (decide (m1 = m2)) as [<-|Hm].
  - destruct (wf_sep _ HwfE l l b b _ _ m1 Hb Hb F1 F2) as [_ Hk].
    assert (writtenName d1 ≠ writtenName d2) as Hn.
    { intros E. apply Hslot. by split_and!. }
    assert (o2 = o1) as -> by congruence.
    erewrite (decorate_owned_run d2 (written _ _ _ _ _) l b m1);
      [|by apply wf_written|done|done|done|
        simpl; by rewrite lookup_insert_eq].
    erewrite (decorate_owned_run d1 (written _ _ _ _ _) l b m1);
      [|by apply wf_written|done|done|done|
        simpl; by rewrite lookup_insert_eq].
    eexists. split; [done|]. unfold written. simpl. do 3 f_equal.
    rewrite !insert_insert_eq. f_equal. by apply insert_insert_ne.
  - erewrite (decorate_owned_run d2 (written _ _ _ _ _) l b m2);
      [|by apply wf_written|done|done|done|
        simpl; by rewrite lookup_insert_ne].
    erewrite (decorate_owned_run d1 (written _ _ _ _ _) l b m1);
      [|by apply wf_written|done|done|done|
        simpl; by rewrite lookup_insert_ne].
    eexists. split; [done|]. unfold written. simpl. do 3 f_equal.
    by apply insert_insert_ne.
Qed.

Lemma decorations_of_a_class_commute_witness :
  ∃ h',
    decorateAll [DInput (mkTarget Derived) "p" [];
                 DOutput (mkTarget Derived) "p" [VString "q"]] baseHeap =
      Some (tt, h') ∧
    decorateAll [DOutput (mkTarget Derived) "p" [VString "q"];
                 DInput (mkTarget Derived) "p" []] baseHeap =
      Some (tt, h').
Proof.
  apply (decorations_of_a_class_commute baseHeap
           (DInput (mkTarget Derived) "p" [])
           (DOutput (mkTarget Derived) "p" [VString "q"])).
  - refine (bool_decide_unpack _ _). vm_compute. exact I.
  - reflexivity.
  - refine (bool_decide_unpack _ _). vm_compute. exact I.
Defined.

(** X10. Creating a descriptor changes no binding that any class sees:
    after [ensureDescriptor] every class, the class itself, its subclasses
    and all others, reads through [ngBaseDef] the entries it read before.
    All that changes is that the class, and the subclasses that saw no
    descriptor, now see empty mappings where they saw none. *)
Theorem ensureDescriptor_is_transparent h c :
  wf h →
  ∃ l h1,
    ensureDescriptor (mkTarget c) h = Some (Some l, h1) ∧
    ∀ c' k, inheritedMapping h1 c' k = inheritedMapping h c' k.
Proof.
  intros Hwf. pose proof (ensured_own h c) as Hown.
  eexists _, (ensured h c). split; [by rewrite ensureDescriptor_run, Hown|].
  intros c' k. unfold ensured in *. case_bool_decide as Hc; [done|].
  unfold inheritedMapping. induction c' as [|x c' IH];
    rewrite (visibleMapping_unfold (initialized h c) _),
      (visibleMapping_unfold h _).
  - destruct (decide ([] = c)) as [<-|Hne].
    + rewrite Hown, ownMapping_initialized_eq. simpl.
      unfold inheritedMapping. by rewrite (visibleMapping_unfold h []).
    + simpl. rewrite lookup_insert_ne by done.
      rewrite ownMapping_initialized_ne by done. done.
  - destruct (decide (x :: c' = c)) as [<-|Hne].
    + rewrite Hown, ownMapping_initialized_eq. simpl.
      unfold inheritedMapping. by rewrite (visibleMapping_unfold h (x :: c')).
    + simpl (ownNgBaseDef (initialized h c)).
      rewrite lookup_insert_ne by done.
      rewrite ownMapping_initialized_ne by done.
      by destruct (ownNgBaseDef h !! (x :: c')).
Qed.

Lemma ensureDescriptor_is_transparent_witness :
  ∃ l h1,
    ensureDescriptor (mkTarget Derived) baseHeap = Some (Some l, h1) ∧
    ∀ c' k, inheritedMapping h1 c' k = inheritedMapping baseHeap c' k.
Proof.
  apply (ensureDescriptor_is_transparent baseHeap Derived).
  refine (bool_decide_unpack _ _). vm_compute. exact I.
Defined.

(** X11. The metadata transform of [Pipe] is idempotent; it returns its
    argument unchanged exactly when the argument has a [pure] property; and
    the properties of the result are those of the argument and [pure]. *)
Theorem Pipe_props_idempotent (p : object) :
  Pipe_props (Pipe_props p) = Pipe_props p ∧
  (Pipe_props p = p ↔ is_Some (p !! "pure")) ∧
  dom (Pipe_props p) = {[ "pure" ]} ∪ dom p.
Proof.
  unfold Pipe_props, spread. split_and!.
  - by rewrite <- (assoc_L (∪)), (idemp_L (∪)).
  - split.
    + intros E. rewrite <- E, lookup_union.
      rewrite lookup_singleton_eq. by destruct (p !! "pure"); eauto.
    + intros [v Hv]. apply map_eq. intros k. rewrite lookup_union.
      destruct (p !! k) as [w|] eqn:Hk; simpl.
      * by destruct ({[ "pure" := VBool true ]} !! k).
      * rewrite lookup_singleton_ne; [done|]. congruence.
  - rewrite dom_union_L, dom_singleton_L. apply (comm_L (∪)).
Qed.

(** X12. The metadata transform of [Component]: without an argument the
    metadata is [{changeDetection: Default}]; with one, every property of
    the argument is kept with its value, [changeDetection] is [Default]
    only when the argument has no such property, and there is no other
    property; and the transform applied to its own result changes
    nothing. *)
Theorem Component_props_default {V} (Default : V) (c : option (gmap string V)) :
  Component_props Default None = {[ "changeDetection" := Default ]} ∧
  (∀ k, Component_props Default c !! k =
        match default ∅ c !! k with
        | Some v => Some v
        | None => if decide (k = "changeDetection") then Some Default else None
        end) ∧
  Component_props Default (Some (Component_props Default c)) =
    Component_props Default c.
Proof.
  unfold Component_props. simpl. split_and!.
  - apply (left_id_L ∅ (∪)).
  - intros k. rewrite lookup_union.
    destruct (default ∅ c !! k) as [v|]; simpl.
    + by destruct ({[ "changeDetection" := Default ]} !! k).
    + rewrite lookup_singleton. by repeat case_decide.
  - by rewrite <- (assoc_L (∪)), (idemp_L (∪)).
Qed.
